(** * Streaming windowed transcription of sasayaki (src/main.rs)

    Shallow embedding of the audio accumulator shared between the GStreamer
    [new_sample] callback and the transcription worker, of the worker loop
    with its [fix_next] flag, of the caption window ([Window::fix_label] and
    the [result_receiver] closure) and of the capacity-1 tick channel. *)

From Stdlib Require Import String.
From Stdlib Require Import List Arith Lia Bool NArith.
Import ListNotations.
Open Scope list_scope.

(** ** Machine arithmetic of the worker

    [usize] subtraction and slicing panic in Rust when they go out of range
    (debug builds trap the subtraction; release builds wrap and the slice
    bound check then panics).  A panic is [None]. *)

Definition usize_sub (a b : nat) : option nat :=
  if b <=? a then Some (a - b) else None.

(** [v[i..]] *)
Definition slice_from {A} (i : nat) (v : list A) : option (list A) :=
  if i <=? length v then Some (skipn i v) else None.

(** [usize] is 64 bits wide.  The size computations of lines 282, 283 and
    344 are modelled as a release build runs them, wrapping modulo [2^64];
    a debug build panics at line 282 on a configuration that overflows,
    before the pipeline starts. *)
Definition usize_modulus : N := 2 ^ 64.

(** [16000 * ms / 1000] on [usize]: milliseconds to samples at 16 kHz. *)
Definition samples_of_ms (ms : nat) : nat :=
  N.to_nat (((16000 * N.of_nat ms) mod usize_modulus) / 1000).

(** Command-line configuration used by the core ([Args.length], [Args.keep]). *)
Record Args := mkArgs { length_ms : nat; keep_ms : nat }.

Definition audio_buf_size (args : Args) : nat := samples_of_ms (length_ms args).
Definition max_buf_size (args : Args) : nat :=
  N.to_nat ((N.of_nat (audio_buf_size args) * 2) mod usize_modulus).
Definition keep_size (args : Args) : nat := samples_of_ms (keep_ms args).

(** ** The sample accumulator ([Arc<Mutex<VecDeque<f32>>>]) *)

Section Accumulator.
Context {A : Type}.

(** Body of the [new_sample] callback, lines 119-124:
    [buf.extend(samples); if buf_len > buf_size { *buf = buf.split_off(buf_len - buf_size) }] *)
Definition push (buf_size : nat) (buf samples : list A) : list A :=
  let buf := buf ++ samples in
  let buf_len := length buf in
  if buf_size <? buf_len then skipn (buf_len - buf_size) buf else buf.

(** The locked block of the worker loop, lines 338-349.  Returns the copied
    [audio_data], whether the full branch was taken (the new [fix_next]) and
    the accumulator afterwards; [None] is a panic. *)
Definition drain (audio_buf_size keep_size : nat) (buf : list A)
  : option (list A * bool * list A) :=
  let audio_data := buf in
  if audio_buf_size <=? length buf then
    (* buf.clear(); buf.extend(&audio_data[(audio_data.len() - keep_size)..]) *)
    match usize_sub (length audio_data) keep_size with
    | None => None
    | Some start =>
        match slice_from start audio_data with
        | None => None
        | Some kept => Some (audio_data, true, [] ++ kept)
        end
    end
  else Some (audio_data, false, buf).

(** The last [n] elements of a list. *)
Definition lastn (n : nat) (l : list A) : list A := skipn (length l - n) l.

End Accumulator.

(** ** The transcription worker (the thread spawned at lines 333-353) *)

Section Worker.
Context {A : Type}.

(** The recognition engine: [ctx.full] followed by [full_get_segment_text]
    for each segment; [None] when either [expect] panics. *)
Variable engine : list A -> option (list string).

(** [whisper], lines 134-168: run the model, concatenate the segment texts
    with [push_str], and send [(result, fix)] once. *)
Definition whisper (audio_data : list A) (fix' : bool) : option (string * bool) :=
  match engine audio_data with
  | None => None
  | Some segments =>
      let result := fold_left String.append segments EmptyString in
      Some (result, fix')
  end.

(** What the audio thread and the timer deliver to the shared state: a
    GStreamer buffer of samples, or a tick received by the worker. *)
Inductive event :=
| Samples (samples : list A)
| Tick.

Record state := mkState { buf : list A; fix_next : bool }.

Definition init : state := mkState [] false.

(** One processed tick: the copied window, the branch taken by the locked
    block, and the message sent on [result_sender]. *)
Record trigger := mkTrigger {
  audio_data : list A;
  full : bool;
  sent : string * bool }.

Definition step (args : Args) (st : state) (ev : event)
  : option (state * list trigger) :=
  match ev with
  | Samples samples =>
      Some (mkState (push (max_buf_size args) (buf st) samples) (fix_next st), [])
  | Tick =>
      let fix' := fix_next st in
      match drain (audio_buf_size args) (keep_size args) (buf st) with
      | None => None
      | Some (audio, is_full, buf') =>
          match whisper audio fix' with
          | None => None
          | Some msg => Some (mkState buf' is_full, [mkTrigger audio is_full msg])
          end
      end
  end.

(** A run over a sequence of events as the worker sees it: the final state,
    and the triggers processed.  [None] is a panic of the worker thread: it
    receives no tick afterwards, so no trigger follows, and the run stops
    there.  (After a panic inside the lock the audio callback cannot push
    either; after an engine panic, outside the lock, it still pushes, which
    this run does not track.) *)
Fixpoint run (args : Args) (st : state) (evs : list event)
  : option state * list trigger :=
  match evs with
  | [] => (Some st, [])
  | ev :: evs' =>
      match step args st ev with
      | None => (None, [])
      | Some (st', out) =>
          let (r, outs) := run args st' evs' in (r, out ++ outs)
      end
  end.

Definition count_ticks (evs : list event) : nat :=
  length (filter (fun ev => match ev with Tick => true | _ => false end) evs).

End Worker.

Arguments event : clear implicits.
Arguments state : clear implicits.
Arguments trigger : clear implicits.

(** ** The caption window ([struct Window], lines 170-269)

    GTK labels are objects: they are named by identifiers, the [vbox] holds
    the identifiers of its children in order, and the text of each label is
    kept in a store. *)

Definition MAX_SCROLLBACKS : nat := 100.

Record Window := mkWindow {
  vbox : list nat;
  scrollbacks : list nat;
  label : nat;
  next_label : nat;
  texts : nat -> string }.

Definition set_text (texts : nat -> string) (l : nat) (s : string) : nat -> string :=
  fun l' => if Nat.eqb l' l then s else texts l'.

(** [gtk::Box::remove] *)
Definition vbox_remove (l : nat) (children : list nat) : list nat :=
  filter (fun c => negb (Nat.eqb c l)) children.

(** The [while self.scrollbacks.len() > MAX_SCROLLBACKS] loop of
    [fix_label]; it runs at most [length scrollbacks] times. *)
Fixpoint trim_scrollbacks (fuel : nat) (sb children : list nat)
  : list nat * list nat :=
  match fuel with
  | 0 => (sb, children)
  | S fuel' =>
      if MAX_SCROLLBACKS <? length sb then
        match sb with
        | [] => (sb, children)
        | l :: sb' => trim_scrollbacks fuel' sb' (vbox_remove l children)
        end
      else (sb, children)
  end.

(** [Window::new]: one empty label in the box, no scrollback. *)
Definition window_new : Window :=
  mkWindow [0] [] 0 1 (fun _ => EmptyString).

(** [Window::fix_label], lines 258-268. *)
Definition fix_label (w : Window) : Window :=
  let sb := scrollbacks w ++ [label w] in
  let (sb', children) := trim_scrollbacks (length sb) sb (vbox w) in
  let l := next_label w in
  mkWindow (children ++ [l]) sb' l (S l) (set_text (texts w) l EmptyString).

(** The [result_receiver.attach] closure, lines 359-363 (the idle scroll
    callback that follows does not change the labels). *)
Definition on_result (msg : string * bool) (w : Window) : Window :=
  let (text, fix') := msg in
  let w := if fix' then fix_label w else w in
  mkWindow (vbox w) (scrollbacks w) (label w) (next_label w)
           (set_text (texts w) (label w) text).

(** ** The tick channel ([sync_channel::<()>(1)], line 324)

    A bounded channel of [std::sync::mpsc]: [try_send] returns
    [Err(Disconnected)] once the receiver has been dropped (the worker thread
    has ended), enqueues when fewer than [capacity] messages are buffered and
    returns [Err(Full)] otherwise, without waiting; [recv] takes the oldest
    message and blocks (has no step) while the buffer is empty.  A dropped
    receiver receives nothing. *)

Record SyncChan := mkChan { queue : list unit; capacity : nat; receiver_alive : bool }.

Definition sync_channel (bound : nat) : SyncChan := mkChan [] bound true.

(** Returns the channel afterwards and whether the message was accepted. *)
Definition try_send (c : SyncChan) : SyncChan * bool :=
  if negb (receiver_alive c) then (c, false)
  else if length (queue c) <? capacity c
  then (mkChan (queue c ++ [tt]) (capacity c) (receiver_alive c), true)
  else (c, false).

Definition recv (c : SyncChan) : option SyncChan :=
  if negb (receiver_alive c) then None
  else match queue c with
  | [] => None
  | _ :: q => Some (mkChan q (capacity c) (receiver_alive c))
  end.

(** The receiver is dropped when the worker thread ends. *)
Definition drop_receiver (c : SyncChan) : SyncChan :=
  mkChan (queue c) (capacity c) false.

(** The [glib::timeout_add] callback, lines 327-330: the result of
    [try_send] is discarded and the timer keeps running. *)
Definition timer_cb (c : SyncChan) : SyncChan * bool :=
  let (c', _) := try_send c in (c', true).

(** Channel states reachable by timer firings, worker receptions and the end
    of the worker thread. *)
Inductive chan_reach : SyncChan -> Prop :=
| reach_new : chan_reach (sync_channel 1)
| reach_fire : forall c, chan_reach c -> chan_reach (fst (timer_cb c))
| reach_recv : forall c c', chan_reach c -> recv c = Some c' -> chan_reach c'
| reach_drop : forall c, chan_reach c -> chan_reach (drop_receiver c).

(** ** Accumulator operations in isolation

    The accumulator as seen through its two locked operations; [None] once a
    panic has poisoned the mutex. *)

Section AccumulatorRun.
Context {A : Type}.

Inductive acc_op :=
| Push (samples : list A)
| DrainWindow.

Fixpoint acc_run (buf_size window_samples keep_samples : nat) (buf : list A)
  (ops : list acc_op) : option (list A) :=
  match ops with
  | [] => Some buf
  | Push samples :: ops' =>
      acc_run buf_size window_samples keep_samples (push buf_size buf samples) ops'
  | DrainWindow :: ops' =>
      match drain window_samples keep_samples buf with
      | None => None
      | Some (_, _, buf') => acc_run buf_size window_samples keep_samples buf' ops'
      end
  end.

(** Every sample ever handed to [push], in capture order. *)
Fixpoint pushed (ops : list acc_op) : list A :=
  match ops with
  | [] => []
  | Push samples :: ops' => samples ++ pushed ops'
  | DrainWindow :: ops' => pushed ops'
  end.

End AccumulatorRun.

Arguments acc_op : clear implicits.

(** ** The [new_sample] callback of [create_pipeline] (lines 88-127)

    A pulled [gst::Sample] may carry a buffer; mapping the buffer readable
    may fail; [as_slice_of::<f32>] (byte_slice_cast) fails unless the bytes
    are aligned for [f32] and their length is a multiple of 4.  A sample is
    kept as the four bytes of its [f32] bit pattern. *)

Definition f32_bits := list Byte.byte.

Record GstBuffer := mkBuffer {
  map_readable_ok : bool;
  bytes : list Byte.byte;
  f32_aligned : bool }.

Record GstSample := mkSample { sample_buffer : option GstBuffer }.

Inductive FlowError := Eos | Error.

(** [Ok(FlowSuccess::Ok)] or [Err(FlowError)]. *)
Inductive FlowReturn := FlowOk | FlowErr (e : FlowError).

(** Consecutive groups of four bytes. *)
Fixpoint chunks4 (l : list Byte.byte) : list f32_bits :=
  match l with
  | a :: b :: c :: d :: rest => [a; b; c; d] :: chunks4 rest
  | _ => []
  end.

(** An empty slice converts before any check; otherwise alignment and a
    length that is a multiple of [size_of::<f32>()] are required. *)
Definition as_slice_of_f32 (b : list Byte.byte) (aligned : bool) : option (list f32_bits) :=
  match b with
  | [] => Some []
  | _ => if aligned && (length b mod 4 =? 0) then Some (chunks4 b) else None
  end.

(** Returns the accumulator afterwards, the error posted on the bus by
    [gst::element_error!] if any, and the callback's result, [None] when
    [buf.lock().unwrap()] panics because the mutex is [poisoned] (a panic of
    the worker inside its locked block).  [pulled] is [None] when
    [appsink.pull_sample()] fails. *)
Definition new_sample (poisoned : bool) (buf_size : nat) (buf : list f32_bits)
  (pulled : option GstSample) : list f32_bits * option string * option FlowReturn :=
  match pulled with
  | None => (buf, None, Some (FlowErr Eos))
  | Some sample =>
      match sample_buffer sample with
      | None => (buf, Some "Failed to get buffer from appsink"%string, Some (FlowErr Error))
      | Some buffer =>
          if negb (map_readable_ok buffer)
          then (buf, Some "Failed to map buffer readable"%string, Some (FlowErr Error))
          else
            match as_slice_of_f32 (bytes buffer) (f32_aligned buffer) with
            | None => (buf, Some "Failed to interprete buffer as F32 PCM"%string,
                       Some (FlowErr Error))
            | Some samples =>
                if poisoned then (buf, None, None)
                else (push buf_size buf samples, None, Some FlowOk)
            end
      end
  end.

(** ** What the caption window shows *)

(** Windows reachable from [Window::new] through the result closure. *)
Inductive win_reach : Window -> Prop :=
| win_new : win_reach window_new
| win_result : forall msg w, win_reach w -> win_reach (on_result msg w).

(** The texts of the labels in the box, top to bottom. *)
Definition displayed (w : Window) : list string := map (texts w) (vbox w).

(** What one caption message does to the displayed texts. *)
Definition transcript_step (shown : list string) (msg : string * bool) : list string :=
  let (text, fix') := msg in
  if fix' then lastn MAX_SCROLLBACKS shown ++ [text] else removelast shown ++ [text].

(** [win.scrollbacks.back().unwrap_or(&win.label)], the label whose position
    decides the scroll in the idle callback (lines 367-379). *)
Definition check_label (w : Window) : nat :=
  match rev (scrollbacks w) with
  | l :: _ => l
  | [] => label w
  end.

(** The shape [Window::new] and [fix_label] keep: the box holds the
    scrollback followed by the visible label, each label once, all created
    before [next_label], and at most [MAX_SCROLLBACKS] labels in history. *)
Definition win_wf (w : Window) : Prop :=
  vbox w = scrollbacks w ++ [label w] /\ NoDup (vbox w) /\
  Forall (fun l => l < next_label w) (vbox w) /\
  length (scrollbacks w) <= MAX_SCROLLBACKS.

(** * Proofs *)

(** ** Facts about the embedding *)

Lemma samples_of_ms_small (ms : nat) :
  (N.of_nat (samples_of_ms ms) * 1000 < usize_modulus)%N.
Proof.
  unfold samples_of_ms. rewrite N2Nat.id.
  pose proof (N.mod_lt (16000 * N.of_nat ms) usize_modulus ltac:(discriminate)) as Hm.
  pose proof (N.Div0.mul_div_le ((16000 * N.of_nat ms) mod usize_modulus) 1000) as Hd.
  lia.
Qed.

(** Without wrap-around at line 282, [samples_of_ms] is [16 * ms]. *)
Lemma samples_of_ms_exact (ms : nat) :
  (16000 * N.of_nat ms < usize_modulus)%N -> samples_of_ms ms = 16 * ms.
Proof.
  intro H. unfold samples_of_ms. rewrite N.mod_small by exact H.
  replace (16000 * N.of_nat ms)%N with (N.of_nat (16 * ms) * 1000)%N by lia.
  rewrite N.div_mul by discriminate. apply Nat2N.id.
Qed.

(** Line 283 never wraps: [max_buf_size] is twice [audio_buf_size]. *)
Lemma max_buf_size_twice (args : Args) : max_buf_size args = 2 * audio_buf_size args.
Proof.
  unfold max_buf_size. pose proof (samples_of_ms_small (length_ms args)) as H.
  unfold audio_buf_size. rewrite N.mod_small by (unfold usize_modulus in *; lia).
  lia.
Qed.

Section AccumulatorFacts.
Context {A : Type}.
Implicit Types (l buf samples : list A) (n : nat).

Lemma lastn_length n l : length (lastn n l) = Nat.min n (length l).
Proof. unfold lastn; rewrite length_skipn; lia. Qed.

Lemma lastn_all n l : length l <= n -> lastn n l = l.
Proof. intro H; unfold lastn; replace (length l - n) with 0 by lia; reflexivity. Qed.

Lemma push_lastn n buf samples : push n buf samples = lastn n (buf ++ samples).
Proof.
  unfold push, lastn.
  destruct (Nat.ltb_spec n (length (buf ++ samples))) as [H | H]; [reflexivity|].
  replace (length (buf ++ samples) - n) with 0 by lia; reflexivity.
Qed.

Lemma push_length n buf samples : length (push n buf samples) <= n.
Proof.
  unfold push.
  destruct (Nat.ltb_spec n (length (buf ++ samples))) as [H | H];
    [rewrite length_skipn|]; lia.
Qed.

Lemma lastn_lastn_app n l samples :
  lastn n (lastn n l ++ samples) = lastn n (l ++ samples).
Proof.
  unfold lastn at 2.
  set (k := length l - n).
  assert (Hk : k <= length l) by (unfold k; lia).
  assert (E : skipn k l ++ samples = skipn k (l ++ samples)).
  { rewrite skipn_app. replace (k - length l) with 0 by lia. reflexivity. }
  rewrite E. unfold lastn. rewrite skipn_skipn, length_skipn, !length_app.
  f_equal. unfold k; lia.
Qed.

Lemma fold_push n samples_list buf :
  length buf <= n ->
  fold_left (push n) samples_list buf = lastn n (buf ++ concat samples_list).
Proof.
  revert buf; induction samples_list as [|xs rest IH]; intros buf Hb; simpl.
  - rewrite app_nil_r, lastn_all; auto.
  - rewrite IH by apply push_length.
    rewrite push_lastn, lastn_lastn_app, app_assoc; reflexivity.
Qed.

(** The shape of a [drain] that returns. *)
Lemma drain_some w k buf audio is_full buf' :
  drain w k buf = Some (audio, is_full, buf') ->
  audio = buf /\
  ((is_full = true /\ w <= length buf /\ k <= length buf /\
    buf' = skipn (length buf - k) buf) \/
   (is_full = false /\ length buf < w /\ buf' = buf)).
Proof.
  unfold drain, usize_sub, slice_from.
  destruct (Nat.leb_spec w (length buf)) as [Hw | Hw].
  - destruct (Nat.leb_spec k (length buf)) as [Hk | Hk]; [|discriminate].
    destruct (Nat.leb_spec (length buf - k) (length buf)) as [_ | Hs]; [|lia].
    intro E; injection E as <- <- <-; split; [reflexivity|left; auto].
  - intro E; injection E as <- <- <-; split; [reflexivity|right; auto].
Qed.

Lemma drain_keeps_bound n w k buf audio is_full buf' :
  length buf <= n -> drain w k buf = Some (audio, is_full, buf') ->
  length audio <= n /\ length buf' <= n.
Proof.
  intros Hb Hd; apply drain_some in Hd as [-> [(_ & _ & Hk & ->) | (_ & _ & ->)]];
    [rewrite length_skipn|]; lia.
Qed.

End AccumulatorFacts.

Section WorkerFacts.
Context {A : Type}.
Variable engine : list A -> option (list string).

(** The [isCorrection] flags of a sequence of processed triggers, read
    against the [full] branch of the trigger before. *)
Fixpoint fix_chain (b : bool) (trs : list (trigger A)) : Prop :=
  match trs with
  | [] => True
  | t :: ts => snd (sent t) = b /\ fix_chain (full t) ts
  end.

Lemma step_tick engine' args (st st' : state A) out :
  step engine' args st Tick = Some (st', out) ->
  exists audio is_full segments,
    drain (audio_buf_size args) (keep_size args) (buf st) = Some (audio, is_full, buf st') /\
    fix_next st' = is_full /\
    engine' audio = Some segments /\
    out = [mkTrigger audio is_full
             (fold_left String.append segments EmptyString, fix_next st)].
Proof.
  simpl. destruct (drain _ _ (buf st)) as [[[audio is_full] buf']|]; [|discriminate].
  unfold whisper. destruct (engine' audio) as [segments|] eqn:Ee; [|discriminate].
  intro E; injection E as <- <-. exists audio, is_full, segments; auto.
Qed.

Lemma run_fix_chain args (st : state A) evs :
  fix_chain (fix_next st) (snd (run engine args st evs)).
Proof.
  revert st; induction evs as [|ev evs IH]; intro st; simpl; [exact I|].
  destruct (step engine args st ev) as [[st' out]|] eqn:Es; [|exact I].
  specialize (IH st'). destruct (run engine args st' evs) as [r outs]; simpl in *.
  destruct ev as [samples|].
  - simpl in Es; injection Es as <- <-; exact IH.
  - apply step_tick in Es as (audio & is_full & segs & _ & Hf & _ & ->).
    simpl; split; [reflexivity|]; rewrite <- Hf; exact IH.
Qed.

Lemma fix_chain_nth b trs :
  fix_chain b trs ->
  forall n t t', nth_error trs n = Some t -> nth_error trs (S n) = Some t' ->
  snd (sent t') = full t.
Proof.
  revert b; induction trs as [|t0 ts IH]; intros b Hc n t t' Hn HSn;
    [destruct n; discriminate|].
  destruct Hc as [_ Hc]. destruct n as [|n]; simpl in Hn, HSn.
  - injection Hn as <-. destruct ts as [|t1 ts]; [discriminate|].
    simpl in HSn; injection HSn as <-. apply Hc.
  - eapply IH; eauto.
Qed.

Lemma fix_chain_flags b trs :
  fix_chain b trs ->
  map (fun t => snd (sent t)) trs = firstn (length trs) (b :: map full trs).
Proof.
  revert b; induction trs as [|t ts IH]; intros b Hc; [reflexivity|].
  destruct Hc as [Hb Hc]. simpl. rewrite Hb, (IH _ Hc). destruct ts; reflexivity.
Qed.

Lemma step_tick_snapshot engine' args (st st' : state A) out :
  step engine' args st Tick = Some (st', out) -> map audio_data out = [buf st].
Proof.
  intro Es. apply step_tick in Es as (audio & is_full & segs & Hd & _ & _ & ->).
  apply drain_some in Hd as [-> _]. reflexivity.
Qed.

Lemma run_processed args (st st' : state A) evs trs :
  run engine args st evs = (Some st', trs) ->
  length trs = count_ticks evs /\
  Forall (fun t => exists segments, engine (audio_data t) = Some segments /\
                   fst (sent t) = fold_left String.append segments EmptyString) trs.
Proof.
  revert st trs; induction evs as [|ev evs IH]; intros st trs Hr; simpl in Hr.
  - injection Hr as _ <-; split; [reflexivity|constructor].
  - destruct (step engine args st ev) as [[st1 out]|] eqn:Es; [|discriminate].
    destruct (run engine args st1 evs) as [r outs] eqn:Er.
    injection Hr as -> <-. destruct (IH st1 outs Er) as [Hl Hf].
    destruct ev as [samples|].
    + simpl in Es; injection Es as _ <-. split; [exact Hl|exact Hf].
    + apply step_tick in Es as (audio & is_full & segs & _ & _ & He & ->).
      unfold count_ticks in *; simpl. split; [rewrite Hl; reflexivity|].
      constructor; [exists segs; auto|exact Hf].
Qed.

Lemma run_bounded args (st : state A) evs :
  length (buf st) <= max_buf_size args ->
  Forall (fun t => length (audio_data t) <= max_buf_size args)
         (snd (run engine args st evs)).
Proof.
  revert st; induction evs as [|ev evs IH]; intros st Hb; simpl; [constructor|].
  destruct (step engine args st ev) as [[st' out]|] eqn:Es; [|constructor].
  destruct ev as [samples|].
  - simpl in Es; injection Es as <- <-.
    specialize (IH (mkState (push (max_buf_size args) (buf st) samples) (fix_next st))
                   (push_length _ (buf st) samples)).
    destruct (run _ _ _ evs); exact IH.
  - apply step_tick in Es as (audio & is_full & segs & Hd & _ & _ & ->).
    destruct (drain_keeps_bound _ _ _ _ _ _ _ Hb Hd) as [Ha Hb'].
    specialize (IH st' Hb'). destruct (run _ _ st' evs); simpl.
    constructor; [exact Ha|exact IH].
Qed.

End WorkerFacts.

Section SuffixFacts.
Context {A : Type}.

Lemma acc_run_suffix C w k (buf acc : list A) ops :
  acc_run C w k buf ops = Some acc -> exists pre, buf ++ pushed ops = pre ++ acc.
Proof.
  revert buf; induction ops as [|op ops IH]; intros buf Hr; simpl in Hr.
  - injection Hr as <-; exists []; rewrite app_nil_r; reflexivity.
  - destruct op as [samples|]; simpl.
    + destruct (IH _ Hr) as [pre Hpre].
      rewrite push_lastn in Hpre; unfold lastn in Hpre.
      exists (firstn (length (buf ++ samples) - C) (buf ++ samples) ++ pre).
      rewrite app_assoc, <- (firstn_skipn (length (buf ++ samples) - C) (buf ++ samples)) at 1.
      rewrite <- app_assoc, Hpre, app_assoc; reflexivity.
    + destruct (drain w k buf) as [[[audio is_full] buf']|] eqn:Hd; [|discriminate].
      destruct (IH _ Hr) as [pre Hpre].
      apply drain_some in Hd as [_ [(_ & _ & _ & ->) | (_ & _ & ->)]].
      * exists (firstn (length buf - k) buf ++ pre).
        rewrite <- (firstn_skipn (length buf - k) buf) at 1.
        rewrite <- app_assoc, Hpre, app_assoc; reflexivity.
      * exists pre; exact Hpre.
Qed.

End SuffixFacts.

(** ** Facts about the caption window *)

Lemma filter_true {T} (l : list T) : filter (fun _ => true) l = l.
Proof. induction l; simpl; congruence. Qed.

Lemma filter_filter' {T} (f g : T -> bool) (l : list T) :
  filter f (filter g l) = filter (fun x => g x && f x) l.
Proof.
  induction l as [|x l IH]; simpl; [reflexivity|].
  destruct (g x); simpl; [destruct (f x)|]; rewrite ?IH; reflexivity.
Qed.

(** Labels dropped from the scrollback are removed from the box. *)
Definition remove_all (dropped children : list nat) : list nat :=
  filter (fun c => negb (existsb (Nat.eqb c) dropped)) children.

Lemma trim_scrollbacks_spec fuel sb children :
  length sb - MAX_SCROLLBACKS <= fuel ->
  trim_scrollbacks fuel sb children =
  (skipn (length sb - MAX_SCROLLBACKS) sb,
   remove_all (firstn (length sb - MAX_SCROLLBACKS) sb) children).
Proof.
  unfold remove_all.
  revert sb children; induction fuel as [|fuel IH]; intros sb children Hf; simpl.
  - replace (length sb - MAX_SCROLLBACKS) with 0 by lia; simpl.
    rewrite filter_true; reflexivity.
  - destruct (Nat.ltb_spec MAX_SCROLLBACKS (length sb)) as [Hlt | Hge].
    + destruct sb as [|l sb']; simpl in Hlt; [lia|].
      simpl length in *. rewrite IH by (unfold MAX_SCROLLBACKS in *; lia).
      replace (S (length sb') - MAX_SCROLLBACKS)
        with (S (length sb' - MAX_SCROLLBACKS)) by (unfold MAX_SCROLLBACKS in *; lia).
      simpl. unfold vbox_remove. rewrite filter_filter'. f_equal.
      apply filter_ext; intro c; rewrite negb_orb; reflexivity.
    + replace (length sb - MAX_SCROLLBACKS) with 0 by lia; simpl.
      rewrite filter_true; reflexivity.
Qed.

(** * Claims *)

(** ** C1: after a full [drainWindow] the accumulator holds exactly the last
    [min keep_samples (length snapshot)] samples of the snapshot, in order. *)
Theorem drain_full_carries_tail {A} (window_samples keep_samples : nat)
  (acc snapshot acc' : list A) :
  drain window_samples keep_samples acc = Some (snapshot, true, acc') ->
  acc' = lastn (Nat.min keep_samples (length snapshot)) snapshot.
Proof.
  intro Hd; apply drain_some in Hd as [-> [(_ & _ & Hk & ->) | (? & _)]];
    [|discriminate].
  unfold lastn; rewrite Nat.min_l by exact Hk; reflexivity.
Qed.

Lemma drain_full_carries_tail_witness :
  drain 2 1 [1; 2; 3] = Some ([1; 2; 3], true, [3]) /\
  [3] = lastn (Nat.min 1 (length [1; 2; 3])) [1; 2; 3].
Proof.
  split; [reflexivity|].
  apply (drain_full_carries_tail 2 1 [1; 2; 3]); reflexivity.
Defined.

(** ** C2: the [isCorrection] flag sent for trigger N is the [full] result
    of trigger N-1; from a cold start the first flag is [false]. *)
Theorem is_correction_follows_full {A} (engine : list A -> option (list string))
  (args : Args) (evs : list (event A)) :
  let trs := snd (run engine args init evs) in
  (forall t, hd_error trs = Some t -> snd (sent t) = false) /\
  (forall n t t', nth_error trs n = Some t -> nth_error trs (S n) = Some t' ->
   snd (sent t') = full t).
Proof.
  intro trs. pose proof (run_fix_chain engine args init evs) as Hc.
  split.
  - intros t Ht. unfold trs in *.
    destruct (snd (run engine args init evs)) as [|t0 ts]; [discriminate|].
    simpl in Ht; injection Ht as <-; apply Hc.
  - apply (fix_chain_nth _ _ Hc).
Qed.

Definition c2_events : list (event nat) := [Samples (repeat 0 16); Tick; Tick].

Lemma is_correction_follows_full_witness :
  hd_error (snd (run (fun _ => Some []) (mkArgs 1 0) init c2_events))
    = Some (mkTrigger (repeat 0 16) true (EmptyString, false)) /\
  snd (sent (@mkTrigger nat [] false (EmptyString, true)))
    = full (mkTrigger (repeat 0 16) true (EmptyString, false)).
Proof.
  split; [vm_compute; reflexivity|].
  apply (proj2 (is_correction_follows_full (fun _ => Some []) (mkArgs 1 0) c2_events) 0);
    vm_compute; reflexivity.
Defined.

(** ** C3: pushes never let the accumulator exceed [C = 2 * windowSamples];
    the accumulator is the last [C] pushed samples, oldest dropped first. *)
Theorem push_bounded_keeps_latest {A} (args : Args) (pushes : list (list A)) :
  let C := max_buf_size args in
  C = 2 * audio_buf_size args /\
  (forall (acc samples : list A),
     length (push C acc samples) <= C /\ push C acc samples = lastn C (acc ++ samples)) /\
  length (fold_left (push C) pushes []) <= C /\
  fold_left (push C) pushes [] = lastn C (concat pushes).
Proof.
  intro C. split; [apply max_buf_size_twice|]. split.
  - intros acc samples; split; [apply push_length|apply push_lastn].
  - rewrite fold_push by (simpl; lia). split; [|reflexivity].
    rewrite lastn_length; lia.
Qed.

(** ** C4 (code bug): with [keep_size] above the accumulator length the full
    branch panics on [audio_data.len() - keep_size] instead of clamping.
    Here [--length 1 --keep 3]: 16-sample windows, 48 kept samples. *)
Theorem keep_over_window_panics {A} (engine : list A -> option (list string)) (x : A) :
  run engine (mkArgs 1 3) init [Samples (repeat x 16); Tick] = (None, []).
Proof. vm_compute; reflexivity. Qed.

(** ** C5 as stated: a correction overwrites the visible caption in place,
    a non-correction finalizes it into history and opens a new entry.
    Refuted on a fresh window with the text "a". *)
Lemma caption_semantics_as_stated_fails :
  ~ (forall (w : Window) (text : string),
       let w1 := on_result (text, true) w in
       let w2 := on_result (text, false) w in
       (vbox w1 = vbox w /\ scrollbacks w1 = scrollbacks w /\
        label w1 = label w /\ texts w1 (label w) = text) /\
       (scrollbacks w2 = scrollbacks w ++ [label w] /\ label w2 <> label w /\
        texts w2 (label w2) = text)).
Proof.
  intro H; specialize (H window_new "a"%string); simpl in H.
  destruct H as [[Hv _] _]; discriminate Hv.
Qed.

(** ** C5 amended: with [isCorrection = true] the visible caption is moved
    into the scrollback (which keeps the last [MAX_SCROLLBACKS] labels, the
    older ones leave the box), a new label is appended to the box and shows
    the text, and the finalized label keeps its text; with
    [isCorrection = false] the visible label is overwritten in place and no
    entry is created. *)
Theorem caption_fix_finalizes {w : Window} (text : string) :
  label w < next_label w ->
  (let w' := on_result (text, false) w in
   vbox w' = vbox w /\ scrollbacks w' = scrollbacks w /\ label w' = label w /\
   texts w' (label w) = text) /\
  (let w' := on_result (text, true) w in
   let sb := scrollbacks w ++ [label w] in
   let dropped := firstn (length sb - MAX_SCROLLBACKS) sb in
   scrollbacks w' = lastn MAX_SCROLLBACKS sb /\
   label w' = next_label w /\
   vbox w' = remove_all dropped (vbox w) ++ [next_label w] /\
   texts w' (next_label w) = text /\
   texts w' (label w) = texts w (label w)).
Proof.
  intro Hlt. split.
  - simpl. unfold set_text. rewrite Nat.eqb_refl. auto.
  - simpl. unfold fix_label.
    rewrite trim_scrollbacks_spec by lia. simpl.
    unfold set_text. rewrite Nat.eqb_refl.
    destruct (Nat.eqb_spec (label w) (next_label w)) as [E|_]; [lia|].
    repeat split; reflexivity.
Qed.

Lemma caption_fix_finalizes_witness :
  (let w' := on_result ("a"%string, false) window_new in
   vbox w' = vbox window_new /\ scrollbacks w' = scrollbacks window_new /\
   label w' = label window_new /\ texts w' (label window_new) = "a"%string) /\
  (let w' := on_result ("a"%string, true) window_new in
   let sb := scrollbacks window_new ++ [label window_new] in
   let dropped := firstn (length sb - MAX_SCROLLBACKS) sb in
   scrollbacks w' = lastn MAX_SCROLLBACKS sb /\
   label w' = next_label window_new /\
   vbox w' = remove_all dropped (vbox window_new) ++ [next_label window_new] /\
   texts w' (next_label window_new) = "a"%string /\
   texts w' (label window_new) = texts window_new (label window_new)).
Proof. apply (@caption_fix_finalizes window_new); vm_compute; lia. Defined.

(** ** C6 as stated: every snapshot is at most [windowSamples] long.
    Refuted with [--length 1 --keep 0] (16-sample windows) after one buffer
    of 20 samples. *)
Lemma snapshot_within_window_fails :
  ~ (forall (engine : list nat -> option (list string)) (evs : list (event nat)),
       Forall (fun t => length (audio_data t) <= audio_buf_size (mkArgs 1 0))
              (snd (run engine (mkArgs 1 0) init evs))).
Proof.
  intro H. specialize (H (fun _ => Some []) [Samples (repeat 0 20); Tick]).
  vm_compute in H. inversion H as [|? ? Hlen _]. lia.
Qed.

(** ** C6 amended: every snapshot handed to the engine is the whole
    accumulator at the tick, and is at most the accumulator capacity
    [2 * windowSamples] long. *)
Theorem snapshot_within_capacity {A} (engine : list A -> option (list string))
  (args : Args) (evs : list (event A)) :
  Forall (fun t => length (audio_data t) <= 2 * audio_buf_size args)
         (snd (run engine args init evs)) /\
  (forall (st st' : state A) out,
     step engine args st Tick = Some (st', out) -> map audio_data out = [buf st]).
Proof.
  split.
  - rewrite <- max_buf_size_twice. apply run_bounded. simpl; lia.
  - intros st st' out. apply step_tick_snapshot.
Qed.

Lemma snapshot_within_capacity_witness :
  map audio_data [mkTrigger (repeat 7 20) true (EmptyString, false)] = [repeat 7 20].
Proof.
  apply (proj2 (snapshot_within_capacity (fun _ => Some []) (mkArgs 1 0) [])
           (mkState (repeat 7 20) false) (mkState [] true)).
  vm_compute. reflexivity.
Defined.

(** ** C7: a [drainWindow] on fewer than [windowSamples] samples (the empty
    accumulator included) returns the contents with [full = false], leaves
    the accumulator unchanged and does not panic. *)
Theorem drain_partial_untouched {A} (window_samples keep_samples : nat) (acc : list A) :
  length acc < window_samples ->
  drain window_samples keep_samples acc = Some (acc, false, acc).
Proof.
  intro H. unfold drain.
  destruct (Nat.leb_spec window_samples (length acc)); [lia|reflexivity].
Qed.

Lemma drain_partial_untouched_witness :
  drain (audio_buf_size (mkArgs 1 0)) (keep_size (mkArgs 1 0)) (@nil nat)
    = Some ([], false, []).
Proof. apply drain_partial_untouched; vm_compute; lia. Defined.

(** ** C8: every processed tick sends exactly one [(text, fix)] message,
    whose text is the concatenation of the engine's segments, empty or not,
    and whose flag is [fix_next] as read at that tick: [false] for the first
    trigger, then the [full] branch of the trigger before. *)
Theorem every_tick_emits {A} (engine : list A -> option (list string))
  (args : Args) (evs : list (event A)) (st' : state A) (trs : list (trigger A)) :
  run engine args init evs = (Some st', trs) ->
  length trs = count_ticks evs /\
  Forall (fun t => exists segments, engine (audio_data t) = Some segments /\
                   fst (sent t) = fold_left String.append segments EmptyString) trs /\
  map (fun t => snd (sent t)) trs = firstn (length trs) (false :: map full trs).
Proof.
  intro Hr. destruct (run_processed engine args init st' evs trs Hr) as [Hl Hf].
  split; [exact Hl|]. split; [exact Hf|].
  apply fix_chain_flags. change false with (fix_next (@init A)).
  pose proof (run_fix_chain engine args init evs) as Hc. rewrite Hr in Hc. exact Hc.
Qed.

Lemma every_tick_emits_witness :
  let trs := snd (run (fun _ => Some []) (mkArgs 1 0) init
                      [Samples (repeat 7 20); Tick; Tick]) in
  length trs = count_ticks [Samples (repeat 7 20); Tick; Tick] /\
  Forall (fun t => exists segments, (fun _ : list nat => Some []) (audio_data t) = Some segments /\
                   fst (sent t) = fold_left String.append segments EmptyString) trs /\
  map (fun t => snd (sent t)) trs = firstn (length trs) (false :: map full trs).
Proof.
  apply (every_tick_emits (fun _ => Some []) (mkArgs 1 0) [Samples (repeat 7 20); Tick; Tick]
           (mkState [] false)).
  vm_compute; reflexivity.
Defined.

(** ** C9: the tick channel holds at most one pending tick; the timer
    callback never waits, keeps the timer running, and drops its tick when
    one is already pending. *)
Theorem tick_channel_capacity_one (c : SyncChan) :
  chan_reach c ->
  capacity c = 1 /\ length (queue c) <= 1 /\ snd (timer_cb c) = true /\
  (queue c <> [] -> timer_cb c = (c, true) /\ snd (try_send c) = false).
Proof.
  intro Hr.
  assert (Hinv : capacity c = 1 /\ length (queue c) <= 1).
  { induction Hr as [|c _ [Hc Hl]|c c' _ [Hc Hl] Hrecv|c _ [Hc Hl]].
    - simpl; lia.
    - unfold timer_cb, try_send. destruct (negb (receiver_alive c)); [simpl; lia|].
      destruct (Nat.ltb_spec (length (queue c)) (capacity c)); simpl;
        [rewrite length_app; simpl|]; lia.
    - unfold recv in Hrecv. destruct (negb (receiver_alive c)); [discriminate|].
      destruct (queue c) as [|u q]; [discriminate|].
      injection Hrecv as <-; simpl in *; lia.
    - simpl; lia. }
  destruct Hinv as [Hc Hl]. split; [exact Hc|]. split; [exact Hl|]. split.
  - unfold timer_cb; destruct (try_send c); reflexivity.
  - intro Hne. destruct (queue c) as [|u q] eqn:Eq; [contradiction|].
    unfold timer_cb, try_send. destruct (negb (receiver_alive c)); [split; reflexivity|].
    rewrite Eq, Hc. destruct q; simpl in Hl; [|lia]. simpl. split; reflexivity.
Qed.

Lemma tick_channel_capacity_one_witness :
  let c := fst (timer_cb (sync_channel 1)) in
  capacity c = 1 /\ length (queue c) <= 1 /\ snd (timer_cb c) = true /\
  (queue c <> [] -> timer_cb c = (c, true) /\ snd (try_send c) = false).
Proof. apply tick_channel_capacity_one. apply reach_fire, reach_new. Defined.

(** ** C10: from the empty accumulator, any interleaving of pushes and
    drains leaves a contiguous suffix of everything pushed so far. *)
Theorem acc_contents_suffix {A} (C window_samples keep_samples : nat)
  (ops : list (acc_op A)) (acc : list A) :
  acc_run C window_samples keep_samples [] ops = Some acc ->
  exists pre, pushed ops = pre ++ acc.
Proof. intro H. apply (acc_run_suffix _ _ _ [] acc ops H). Qed.

Lemma acc_contents_suffix_witness :
  exists pre, pushed [Push [1; 2; 3]; DrainWindow; Push [4]] = pre ++ [3; 4].
Proof. apply (acc_contents_suffix 4 2 1); vm_compute; reflexivity. Defined.

(** * Further properties of the code *)

(** ** Decoding GStreamer buffers *)

Lemma chunks4_roundtrip (l : list Byte.byte) :
  length l mod 4 = 0 ->
  concat (chunks4 l) = l /\ Forall (fun s => length s = 4) (chunks4 l) /\
  length (chunks4 l) = length l / 4.
Proof.
  intro Hm.
  assert (Hn : length l = 4 * (length l / 4)).
  { pose proof (Nat.div_mod (length l) 4 ltac:(lia)); lia. }
  remember (length l / 4) as n eqn:En; clear En Hm.
  revert l Hn; induction n as [|n IH]; intros l Hn.
  - destruct l; [|discriminate]. simpl; repeat split; constructor.
  - destruct l as [|a [|b [|c [|d rest]]]]; simpl in Hn; try lia.
    destruct (IH rest ltac:(lia)) as (Hc & Hf & Hl).
    simpl. rewrite Hc, Hl. split; [reflexivity|]. split; [constructor; auto|reflexivity].
Qed.



(** ** X2: a mapped, [f32]-aligned buffer whose length is a multiple of 4 is
    read four bytes per sample, none lost or added.  While the mutex is
    healthy the samples are pushed onto the accumulator and the callback
    returns [Ok]; once it is poisoned the callback panics at
    [buf.lock().unwrap()] and the accumulator is left as it was. *)
Theorem new_sample_ok (buf_size : nat) (buf : list f32_bits) (b : GstBuffer) :
  map_readable_ok b = true -> f32_aligned b = true -> length (bytes b) mod 4 = 0 ->
  exists samples,
    new_sample false buf_size buf (Some (mkSample (Some b)))
      = (push buf_size buf samples, None, Some FlowOk) /\
    new_sample true buf_size buf (Some (mkSample (Some b))) = (buf, None, None) /\
    concat samples = bytes b /\ Forall (fun s => length s = 4) samples /\
    length samples = length (bytes b) / 4.
Proof.
  intros Hm Ha Hl. exists (chunks4 (bytes b)).
  assert (Hs : as_slice_of_f32 (bytes b) (f32_aligned b) = Some (chunks4 (bytes b))).
  { unfold as_slice_of_f32. rewrite Ha, Hl. destruct (bytes b); reflexivity. }
  unfold new_sample; cbn [sample_buffer]. rewrite Hm, Hs.
  split; [reflexivity|]. split; [reflexivity|]. apply chunks4_roundtrip, Hl.
Qed.

Definition sample_bytes : list Byte.byte :=
  [Byte.x00; Byte.x00; Byte.x80; Byte.x3f; Byte.x00; Byte.x00; Byte.x00; Byte.x00].

Lemma new_sample_ok_witness :
  exists samples,
    new_sample false 32 [] (Some (mkSample (Some (mkBuffer true sample_bytes true))))
      = (push 32 [] samples, None, Some FlowOk) /\
    new_sample true 32 [] (Some (mkSample (Some (mkBuffer true sample_bytes true))))
      = ([], None, None) /\
    concat samples = sample_bytes /\ Forall (fun s => length s = 4) samples /\
    length samples = length sample_bytes / 4.
Proof. apply (new_sample_ok 32 [] (mkBuffer true sample_bytes true)); reflexivity. Defined.

(** ** The worker's locked block *)

Lemma drain_none_iff {A} (window_samples keep_samples : nat) (buf : list A) :
  drain window_samples keep_samples buf = None <->
  window_samples <= length buf /\ length buf < keep_samples.
Proof.
  unfold drain, usize_sub, slice_from.
  destruct (Nat.leb_spec window_samples (length buf)) as [Hw | Hw].
  - destruct (Nat.leb_spec keep_samples (length buf)) as [Hk | Hk].
    + destruct (Nat.leb_spec (length buf - keep_samples) (length buf)); [|lia].
      split; [discriminate|lia].
    + split; [intros _; lia|reflexivity].
  - split; [discriminate|lia].
Qed.

(** ** X3: [drainWindow] panics exactly when the window is full and the
    accumulator holds fewer samples than [keep_size]. *)
Theorem drain_panics_iff {A} (window_samples keep_samples : nat) (buf : list A) :
  drain window_samples keep_samples buf = None <->
  window_samples <= length buf /\ length buf < keep_samples.
Proof. apply drain_none_iff. Qed.

Lemma keep_size_le (args : Args) :
  keep_ms args <= length_ms args ->
  (16000 * N.of_nat (length_ms args) < usize_modulus)%N ->
  keep_size args <= audio_buf_size args.
Proof.
  intros Hk Hl. unfold keep_size, audio_buf_size.
  rewrite !samples_of_ms_exact by lia. lia.
Qed.

(** ** X4: when [--keep] is at most [--length], [16000 * length] does not
    wrap around on [usize], and the engine never fails, the worker never
    panics, whatever the audio and ticks. *)
Theorem worker_never_panics {A} (engine : list A -> option (list string))
  (args : Args) (st : state A) (evs : list (event A)) :
  keep_ms args <= length_ms args ->
  (16000 * N.of_nat (length_ms args) < usize_modulus)%N ->
  (forall audio, engine audio <> None) ->
  fst (run engine args st evs) <> None.
Proof.
  intros Hk Hn He. revert st; induction evs as [|ev evs IH]; intro st; simpl;
    [discriminate|].
  destruct (step engine args st ev) as [[st' out]|] eqn:Es.
  - specialize (IH st'). destruct (run engine args st' evs); exact IH.
  - exfalso. destruct ev as [samples|]; [discriminate|]. simpl in Es.
    destruct (drain _ _ (buf st)) as [[[audio is_full] buf']|] eqn:Hd.
    + unfold whisper in Es. destruct (engine audio) eqn:Ee; [discriminate|].
      exact (He audio Ee).
    + apply drain_none_iff in Hd. pose proof (keep_size_le args Hk Hn); lia.
Qed.

Lemma worker_never_panics_witness :
  fst (run (fun _ : list nat => Some []) (mkArgs 10 2) init
           [Samples (repeat 0 200); Tick; Tick]) <> None.
Proof.
  apply worker_never_panics; [simpl; lia|vm_compute; reflexivity|].
  intros audio; discriminate.
Defined.

Lemma run_concat {A} (engine : list A -> option (list string)) (args : Args)
  (st : state A) (evs1 evs2 : list (event A)) :
  run engine args st (evs1 ++ evs2) =
  match run engine args st evs1 with
  | (Some st', trs1) => let (r, trs2) := run engine args st' evs2 in (r, trs1 ++ trs2)
  | (None, trs1) => (None, trs1)
  end.
Proof.
  revert st; induction evs1 as [|ev evs1 IH]; intro st; simpl.
  - destruct (run engine args st evs2); reflexivity.
  - destruct (step engine args st ev) as [[st1 out]|]; [|reflexivity].
    rewrite IH. destruct (run engine args st1 evs1) as [[st'|] trs1]; simpl.
    + destruct (run engine args st' evs2); rewrite app_assoc; reflexivity.
    + reflexivity.
Qed.

Lemma run_samples {A} (engine : list A -> option (list string)) (args : Args)
  (st : state A) (xss : list (list A)) :
  run engine args st (map Samples xss) =
  (Some (mkState (fold_left (push (max_buf_size args)) xss (buf st)) (fix_next st)), []).
Proof.
  revert st; induction xss as [|xs xss IH]; intro st; simpl; [destruct st; reflexivity|].
  rewrite IH; reflexivity.
Qed.

(** ** X6: consecutive windows: the window of a tick is the last
    [max_buf_size] samples of what the previous tick left in the accumulator
    (its last [keep_size] samples when it was full, all of it otherwise)
    followed by the samples captured in between. *)
Theorem next_window_overlap {A} (engine : list A -> option (list string))
  (args : Args) (st : state A) (xss : list (list A)) r (t1 t2 : trigger A) :
  length (buf st) <= max_buf_size args ->
  run engine args st (Tick :: map Samples xss ++ [Tick]) = (r, [t1; t2]) ->
  audio_data t2 =
  lastn (max_buf_size args)
    ((if full t1 then lastn (keep_size args) (audio_data t1) else audio_data t1)
     ++ concat xss).
Proof.
  intros Hb Hr. cbn [run] in Hr.
  destruct (step engine args st Tick) as [[st1 out1]|] eqn:E1; [|discriminate].
  apply step_tick in E1 as (audio1 & full1 & segs1 & Hd1 & Hf1 & _ & ->).
  rewrite run_concat, run_samples in Hr. cbn [run] in Hr.
  set (st1' := mkState (fold_left (push (max_buf_size args)) xss (buf st1)) (fix_next st1)) in Hr.
  destruct (step engine args st1' Tick) as [[st2 out2]|] eqn:E2; [|discriminate].
  apply step_tick in E2 as (audio2 & full2 & segs2 & Hd2 & _ & _ & ->).
  simpl in Hr. injection Hr as _ <- <-. simpl.
  destruct (drain_keeps_bound _ _ _ _ _ _ _ Hb Hd1) as [_ Hb1].
  apply drain_some in Hd2 as [-> _]. simpl.
  rewrite fold_push by exact Hb1.
  apply drain_some in Hd1 as [-> [(-> & _ & _ & ->) | (-> & _ & ->)]]; reflexivity.
Qed.

Lemma next_window_overlap_witness :
  audio_data (@mkTrigger nat [4; 5; 6; 7] false (EmptyString, true)) =
  lastn (max_buf_size (mkArgs 1 0))
    ((if full (@mkTrigger nat (repeat 0 16) true (EmptyString, false))
      then lastn (keep_size (mkArgs 1 0)) (repeat 0 16) else repeat 0 16)
     ++ concat [[4; 5]; [6; 7]]).
Proof.
  apply (next_window_overlap (fun _ => Some []) (mkArgs 1 0)
           (mkState (repeat 0 16) false) [[4; 5]; [6; 7]] (Some (mkState [4; 5; 6; 7] false)));
    vm_compute; [lia|reflexivity].
Defined.

(** ** The caption window over a sequence of messages *)

Lemma filter_false {T} (l : list T) : filter (fun _ => false) l = [].
Proof. induction l; simpl; auto. Qed.

Lemma nodup_app_disjoint {T} (x y : list T) a :
  NoDup (x ++ y) -> In a x -> ~ In a y.
Proof.
  induction x as [|b x IH]; simpl; [tauto|].
  intros Hn [<- | Hin]; inversion Hn as [|? ? Hnot Hn']; subst.
  - intro Hy; apply Hnot, in_or_app; auto.
  - apply IH; auto.
Qed.

Lemma remove_all_prefix (x y : list nat) :
  NoDup (x ++ y) -> remove_all x (x ++ y) = y.
Proof.
  intro Hn. unfold remove_all. rewrite filter_app.
  rewrite (filter_ext_in _ (fun _ => false) x), filter_false.
  - rewrite (filter_ext_in _ (fun _ => true) y), filter_true; [reflexivity|].
    intros c Hc. destruct (existsb (Nat.eqb c) x) eqn:E; [|reflexivity].
    apply existsb_exists in E as (c' & Hc' & Heq). apply Nat.eqb_eq in Heq; subst c'.
    exfalso; exact (nodup_app_disjoint x y c Hn Hc' Hc).
  - intros c Hc. destruct (existsb (Nat.eqb c) x) eqn:E; [reflexivity|].
    exfalso. assert (existsb (Nat.eqb c) x = true) as E'
      by (apply existsb_exists; exists c; rewrite Nat.eqb_refl; auto).
    congruence.
Qed.

Lemma fix_label_eq (w : Window) :
  win_wf w ->
  let sb := scrollbacks w ++ [label w] in
  fix_label w =
  mkWindow (lastn MAX_SCROLLBACKS sb ++ [next_label w]) (lastn MAX_SCROLLBACKS sb)
           (next_label w) (S (next_label w)) (set_text (texts w) (next_label w) EmptyString).
Proof.
  intros (Hv & Hn & _ & _). cbv zeta. unfold fix_label.
  set (sb := scrollbacks w ++ [label w]) in *.
  rewrite trim_scrollbacks_spec by lia. cbv beta iota. rewrite Hv.
  assert (E : remove_all (firstn (length sb - MAX_SCROLLBACKS) sb) sb
              = skipn (length sb - MAX_SCROLLBACKS) sb).
  { rewrite Hv in Hn. pose proof (firstn_skipn (length sb - MAX_SCROLLBACKS) sb) as Es.
    set (x := firstn _ sb) in *. set (y := skipn _ sb) in *.
    rewrite <- Es in Hn |- *. apply remove_all_prefix, Hn. }
  rewrite E; reflexivity.
Qed.

Lemma in_skipn' {T} (n : nat) (l : list T) a : In a (skipn n l) -> In a l.
Proof. intro H. rewrite <- (firstn_skipn n l). apply in_or_app; right; exact H. Qed.

Lemma Forall_lt_ne (L : list nat) n :
  Forall (fun l => l < n) L -> forall l, In l L -> Nat.eqb l n = false.
Proof.
  intros HF l Hl. rewrite Forall_forall in HF. apply Nat.eqb_neq. specialize (HF l Hl); lia.
Qed.

Lemma on_result_wf msg (w : Window) : win_wf w -> win_wf (on_result msg w).
Proof.
  intro Hwf. destruct msg as [text [|]]; simpl.
  - rewrite (fix_label_eq w Hwf); simpl.
    destruct Hwf as (Hv & Hn & Hf & _).
    set (sb := scrollbacks w ++ [label w]).
    assert (Hsb : vbox w = sb) by exact Hv.
    split; [reflexivity|]. split; [|split].
    + apply NoDup_app.
      * unfold lastn; apply NoDup_app_remove_l with (firstn (length sb - MAX_SCROLLBACKS) sb).
        rewrite firstn_skipn, <- Hsb; exact Hn.
      * constructor; [intros []|constructor].
      * intros a Ha [<- | []]. unfold lastn in Ha. apply in_skipn' in Ha.
        rewrite <- Hsb in Ha. rewrite Forall_forall in Hf. specialize (Hf _ Ha); lia.
    + cbn [next_label vbox]. apply Forall_app; split; [|constructor; [lia|constructor]].
      apply Forall_forall; intros a Ha. unfold lastn in Ha. apply in_skipn' in Ha.
      rewrite <- Hsb in Ha. rewrite Forall_forall in Hf. specialize (Hf _ Ha); lia.
    + cbn [scrollbacks]. rewrite lastn_length; lia.
  - destruct w; exact Hwf.
Qed.

Lemma win_reach_wf (w : Window) : win_reach w -> win_wf w.
Proof.
  induction 1 as [|msg w _ IH]; [|apply on_result_wf; exact IH].
  unfold win_wf; simpl. split; [reflexivity|]. split; [constructor; [intros []|constructor]|].
  split; [constructor; [lia|constructor]|]. unfold MAX_SCROLLBACKS; lia.
Qed.

(** ** X7: every window reached from [Window::new] through caption messages
    shows in its box exactly the scrollback labels followed by the visible
    label, each once; the scrollback holds at most 100 labels and the box at
    most 101. *)
Theorem window_layout (w : Window) :
  win_reach w ->
  vbox w = scrollbacks w ++ [label w] /\ NoDup (vbox w) /\
  length (scrollbacks w) <= MAX_SCROLLBACKS /\ length (vbox w) <= S MAX_SCROLLBACKS.
Proof.
  intro Hr. destruct (win_reach_wf w Hr) as (Hv & Hn & _ & Hl).
  repeat split; auto. rewrite Hv, length_app; simpl; lia.
Qed.

Lemma window_layout_witness :
  let w := on_result ("b"%string, false) (on_result ("a"%string, true) window_new) in
  vbox w = scrollbacks w ++ [label w] /\ NoDup (vbox w) /\
  length (scrollbacks w) <= MAX_SCROLLBACKS /\ length (vbox w) <= S MAX_SCROLLBACKS.
Proof. apply window_layout. apply win_result, win_result, win_new. Defined.

Lemma map_set_text_notin (txts : nat -> string) (L : list nat) l s :
  ~ In l L -> map (set_text txts l s) L = map txts L.
Proof.
  intro Hn. apply map_ext_in. intros a Ha. unfold set_text.
  destruct (Nat.eqb_spec a l) as [-> | _]; [contradiction|reflexivity].
Qed.

Lemma lastn_map {T U} (f : T -> U) n (l : list T) :
  lastn n (map f l) = map f (lastn n l).
Proof. unfold lastn; rewrite length_map, skipn_map; reflexivity. Qed.

Lemma displayed_step (w : Window) (msg : string * bool) :
  win_reach w ->
  displayed (on_result msg w) = transcript_step (displayed w) msg.
Proof.
  intro Hr. pose proof (win_reach_wf w Hr) as Hwf.
  destruct msg as [text [|]]; unfold displayed, transcript_step; simpl.
  - rewrite (fix_label_eq w Hwf); simpl.
    destruct Hwf as (Hv & _ & Hf & _). rewrite Hv.
    rewrite map_app, lastn_map. simpl. unfold set_text at 1 3. rewrite Nat.eqb_refl.
    f_equal. apply map_ext_in. intros a Ha. unfold set_text.
    apply in_skipn' in Ha. rewrite <- Hv in Ha.
    rewrite (Forall_lt_ne _ _ Hf a Ha). reflexivity.
  - destruct Hwf as (Hv & Hn & _ & _). rewrite Hv in *.
    rewrite !map_app, removelast_app by discriminate. simpl.
    rewrite map_set_text_notin.
    + unfold set_text; rewrite Nat.eqb_refl, app_nil_r; reflexivity.
    + intro Hin. apply (nodup_app_disjoint _ _ (label w) Hn Hin); left; reflexivity.
Qed.

(** ** X8: on a window reached from [Window::new], a message with
    [fix = true] keeps the last 100 displayed texts and shows the new text
    below them; a message with [fix = false] replaces the last displayed
    text and leaves the others as they are. *)
Theorem displayed_on_result (w : Window) (msg : string * bool) :
  win_reach w ->
  displayed (on_result msg w) = transcript_step (displayed w) msg.
Proof. apply displayed_step. Qed.

Lemma displayed_on_result_witness :
  displayed (on_result ("b"%string, true) (on_result ("a"%string, false) window_new)) =
  transcript_step (displayed (on_result ("a"%string, false) window_new)) ("b"%string, true).
Proof. apply displayed_on_result. apply win_result, win_new. Defined.

(** ** X9: the texts shown after any sequence of caption messages are the
    texts obtained from the single empty label of [Window::new] by applying
    the messages in order with [transcript_step]. *)
Theorem displayed_transcript (msgs : list (string * bool)) :
  displayed (fold_left (fun w msg => on_result msg w) msgs window_new) =
  fold_left transcript_step msgs [EmptyString].
Proof.
  change [EmptyString] with (displayed window_new).
  generalize window_new win_new.
  induction msgs as [|msg msgs IH]; intros w Hr; simpl; [reflexivity|].
  rewrite IH by (apply win_result, Hr). rewrite displayed_step by exact Hr.
  reflexivity.
Qed.

(** ** X10: the label consulted by the idle scroll callback is the one just
    above the visible label in the box, or the visible label itself while
    nothing is in the scrollback. *)
Theorem check_label_second_last (w : Window) :
  win_reach w ->
  (exists pre, vbox w = pre ++ [check_label w; label w]) \/
  (scrollbacks w = [] /\ vbox w = [label w] /\ check_label w = label w).
Proof.
  intro Hr. destruct (win_reach_wf w Hr) as (Hv & _ & _ & _).
  unfold check_label. rewrite Hv.
  destruct (rev (scrollbacks w)) as [|l rsb] eqn:E.
  - right. apply (f_equal (@rev nat)) in E. rewrite rev_involutive in E; simpl in E.
    rewrite E; auto.
  - left. exists (rev rsb).
    apply (f_equal (@rev nat)) in E. rewrite rev_involutive in E; simpl in E.
    rewrite E, <- app_assoc; reflexivity.
Qed.

Lemma check_label_second_last_witness :
  let w := on_result ("b"%string, true) window_new in
  (exists pre, vbox w = pre ++ [check_label w; label w]) \/
  (scrollbacks w = [] /\ vbox w = [label w] /\ check_label w = label w).
Proof. apply check_label_second_last. apply win_result, win_new. Defined.

Lemma chan_reach_capacity (c : SyncChan) :
  chan_reach c -> capacity c = 1 /\ length (queue c) <= 1.
Proof.
  induction 1 as [|c _ [Hc Hl]|c c' _ [Hc Hl] Hrecv|c _ [Hc Hl]].
  - simpl; lia.
  - unfold timer_cb, try_send. destruct (negb (receiver_alive c)); [simpl; lia|].
    destruct (Nat.ltb_spec (length (queue c)) (capacity c)); simpl;
      [rewrite length_app; simpl|]; lia.
  - unfold recv in Hrecv. destruct (negb (receiver_alive c)); [discriminate|].
    destruct (queue c) as [|u q]; [discriminate|].
    injection Hrecv as <-; simpl in *; lia.
  - simpl; lia.
Qed.

(** ** X11: while the worker thread is alive, a tick fired into the empty
    channel is accepted and is the next message the worker receives; once the
    worker thread has ended, every tick is refused ([Err(Disconnected)]) and
    the timer keeps running. *)
Theorem tick_into_empty_channel_delivered (c : SyncChan) :
  chan_reach c ->
  (receiver_alive c = true -> queue c = [] ->
     snd (try_send c) = true /\ recv (fst (timer_cb c)) = Some c) /\
  (receiver_alive c = false -> try_send c = (c, false) /\ timer_cb c = (c, true)).
Proof.
  intros Hr. destruct (chan_reach_capacity c Hr) as [Hc _]. split.
  - intros Ha Hq. destruct c as [q cap alive]; simpl in *; subst.
    unfold timer_cb, try_send; simpl. split; reflexivity.
  - intros Ha. unfold timer_cb, try_send. rewrite Ha. split; reflexivity.
Qed.

Lemma tick_into_empty_channel_delivered_witness :
  (snd (try_send (sync_channel 1)) = true /\
   recv (fst (timer_cb (sync_channel 1))) = Some (sync_channel 1)) /\
  (try_send (drop_receiver (sync_channel 1)) = (drop_receiver (sync_channel 1), false) /\
   timer_cb (drop_receiver (sync_channel 1)) = (drop_receiver (sync_channel 1), true)).
Proof.
  split.
  - apply (proj1 (tick_into_empty_channel_delivered (sync_channel 1) reach_new));
      reflexivity.
  - apply (proj2 (tick_into_empty_channel_delivered (drop_receiver (sync_channel 1))
                    (reach_drop _ reach_new))); reflexivity.
Defined.
